(** * ttlswisscache: a TTL cache over a sharded concurrent map

    Shallow embedding of [ttlcache.go] and the properties of its
    public operations ([New], [Get], [Set], [Delete], [Clear], [Close])
    and of the background sweeper ([cleanup], [cleaner]).

    Conventions.
    - [uint64] keys are [N]; they are only hashed and compared.
    - [int64] timestamps and [time.Duration] values are [Z], and Go's
      wrapping addition is written out ([add64]).
    - [interface{}] values are [option V]: [None] is Go's [nil].
    - [time.Now().UnixNano()] is an explicit argument [now].
    - A Go panic is the [Panicked] outcome.
    - The goroutine started by [New] is a state machine stepped by the
      events its [select] can receive. *)

From Stdlib Require Import ZArith NArith Lia String.
From stdpp Require Import base decidable option fin vector list gmap fin_maps.

Local Open Scope Z_scope.

(** ** Machine integers *)

Definition int64_min : Z := - 2 ^ 63.
Definition int64_max : Z := 2 ^ 63 - 1.

Definition is_int64 (z : Z) : Prop := int64_min ≤ z ≤ int64_max.

(** Two's complement reduction to 64 bits. *)
Definition wrap64 (z : Z) : Z := (z + 2 ^ 63) `mod` 2 ^ 64 - 2 ^ 63.

(** Go's [+] on [int64]: overflow wraps silently. *)
Definition add64 (a b : Z) : Z := wrap64 (a + b).

(** ** Outcomes: a call returns or panics *)

Inductive outcome (A : Type) : Type :=
  | Returned (a : A)
  | Panicked (msg : string).
Arguments Returned {A} a.
Arguments Panicked {A} msg.

Definition obind {A B} (m : outcome A) (f : A → outcome B) : outcome B :=
  match m with
  | Returned a => f a
  | Panicked msg => Panicked msg
  end.

Notation "x ←! m ; k" := (obind m (λ x, k))
  (at level 20, m at level 100, k at level 200, right associativity,
   format "x  ←!  m ;  '/' k").
Notation "' p ←! m ; k" := (obind m (λ p, k))
  (at level 20, p pattern, m at level 100, k at level 200,
   right associativity, format "' p  ←!  m ;  '/' k").

Definition returns {A} (m : outcome A) : Prop := ∃ a, m = Returned a.

(** ** The concurrent swiss map (package csmap) *)

Module csmap.
(** [WithShardCount(32)] in [New]. *)
Definition shardCount : nat := 32.

(** Modelled from the spec: the package
    github.com/mhmtszr/concurrent-swiss-map is imported, not part of
    this repository. A store is a fixed vector of [shardCount]
    shards, each an unordered map from key to entry; a key lives in
    the shard selected by its hash modulo the shard count. *)
Abbreviation CsMap A := (vec (gmap N A) shardCount).

Section csmap.
Context {A : Type}.
(** The map's hash function on keys (seeded at construction). *)
Variable hasher : N → N.

Lemma shard_index_lt (key : N) :
  (N.to_nat (hasher key `mod` N.of_nat shardCount) < shardCount)%nat.
Proof.
  pose proof (N.mod_upper_bound (hasher key) (N.of_nat shardCount)) as Hlt.
  unfold shardCount in *. lia.
Qed.

(** Modelled from the spec: the shard owning a key, its hash modulo
    the shard count. *)
Definition getShard (key : N) : fin shardCount :=
  nat_to_fin (shard_index_lt key).

(** Modelled from the spec: [Create] with [WithShardCount] and
    [WithSize]; [size] is a capacity hint only. *)
Definition Create (size : nat) : CsMap A := vreplicate shardCount ∅.

(** Modelled from the spec: [Load(key) -> (value, found)]; [None] is
    the not-found result. *)
Definition Load (m : CsMap A) (key : N) : option A :=
  (m !!! getShard key) !! key.

(** Modelled from the spec: [Store(key, item)] inserts or overwrites
    in the owning shard. *)
Definition Store (m : CsMap A) (key : N) (a : A) : CsMap A :=
  vinsert (getShard key) (<[key := a]> (m !!! getShard key)) m.

(** Modelled from the spec: [Delete(key)] removes the key from its
    shard if present. *)
Definition Delete (m : CsMap A) (key : N) : CsMap A :=
  vinsert (getShard key) (delete key (m !!! getShard key)) m.

(** Modelled from the spec: [Count()] adds up the shard sizes. *)
Definition Count (m : CsMap A) : nat :=
  sum_list (size <$> vec_to_list m).

(** Modelled from the spec: [Clear()] empties every shard. *)
Definition Clear (m : CsMap A) : CsMap A := vmap (λ _, ∅) m.

(** Modelled from the spec: the pairs [Range] visits, shard by shard. *)
Definition entries (m : CsMap A) : list (N * A) :=
  mjoin (map_to_list <$> vec_to_list m).

(** Modelled from the spec: the visiting loop of [Range] over a given
    traversal; the callback works on the state [S] it captured and
    may panic or ask to stop. *)
Fixpoint visit_all {S : Type} (f : N → A → S → outcome (S * bool))
    (l : list (N * A)) (s : S) : outcome S :=
  match l with
  | [] => Returned s
  | (key, a) :: l' =>
      '(s', stop) ←! f key a s;
      if (stop : bool) then Returned s' else visit_all f l' s'
  end.

(** Modelled from the spec: [Range(visit)] iterates all pairs of
    all shards and stops early when [visit] says so. *)
Definition Range {S : Type} (m : CsMap A)
    (f : N → A → S → outcome (S * bool)) (s : S) : outcome S :=
  visit_all f (entries m) s.
End csmap.
End csmap.

(** ** ttlcache.go *)

(** [const defaultCapacity = 64] *)
Definition defaultCapacity : nat := 64.

Section ttlcache.
Context {V : Type}.
Variable hasher : N → N.

(** [interface{}]: [None] is [nil]. *)
Definition any : Type := option V.

(** [type item struct { deadline int64; value interface{} }] *)
Record item : Type := Item { deadline : Z; value : any }.

(** A channel that is never sent on: only [close] changes it. *)
Inductive chan : Type := ChanOpen | ChanClosed.

(** [type Cache struct { done chan struct{}; items *csmap.CsMap }] *)
Record Cache : Type := MkCache { done : chan; items : csmap.CsMap item }.

(** Go's [close(ch)]. *)
Definition close (ch : chan) : outcome chan :=
  match ch with
  | ChanOpen => Returned ChanClosed
  | ChanClosed => Panicked "close of closed channel"
  end.

(** [error]: [None] is [nil]. *)
Definition error : Type := option string.

(** [func (c *Cache) Get(key uint64) (interface{}, bool)] *)
Definition Get (c : Cache) (key : N) : any * bool :=
  match csmap.Load hasher (items c) key with
  | None => (None, false)
  | Some cacheItem => (value cacheItem, true)
  end.

(** [func (c *Cache) Set(key uint64, value interface{}, ttl time.Duration)]
    ([Set] is reserved in Rocq, hence the underscore). *)
Definition Set_ (c : Cache) (now : Z) (key : N) (v : any) (ttl : Z) : Cache :=
  let cacheItem := {| deadline := add64 now ttl; value := v |} in
  {| done := done c; items := csmap.Store hasher (items c) key cacheItem |}.

(** [func (c *Cache) Delete(key uint64)] *)
Definition Delete (c : Cache) (key : N) : Cache :=
  {| done := done c; items := csmap.Delete hasher (items c) key |}.

(** [func (c *Cache) Clear()] *)
Definition Clear (c : Cache) : Cache :=
  {| done := done c; items := csmap.Clear (items c) |}.

(** [func (c *Cache) Close() error] *)
Definition Close (c : Cache) : outcome (Cache * error) :=
  d ←! close (done c);
  Returned ({| done := d; items := csmap.Clear (items c) |}, None).

(** [make([]uint64, n)]: [n] zeroes. *)
Definition make (n : nat) : list N := replicate n 0%N.

(** [k[i] = key] with Go's bounds check. *)
Definition slice_store (k : list N) (i : nat) (key : N) : outcome (list N) :=
  if decide (i < length k)%nat then Returned (<[i := key]> k)
  else Panicked "index out of range".

(** The closure passed to [Range] in [cleanup]; it captures [now],
    the slice [k] and the index [i]. *)
Definition collect (now : Z) (key : N) (value : item) (ki : list N * nat)
    : outcome ((list N * nat) * bool) :=
  let '(k, i) := ki in
  if deadline value <? now then
    k' ←! slice_store k i key;
    Returned ((k', S i), false)
  else Returned ((k, i), false).

(** [for _, d := range k { c.items.Delete(d) }] *)
Definition delete_each (m : csmap.CsMap item) (k : list N) : csmap.CsMap item :=
  foldl (csmap.Delete hasher) m k.

(** [func (c *Cache) cleanup()] *)
Definition cleanup (c : Cache) (now : Z) : outcome Cache :=
  let k := make (csmap.Count (items c)) in
  '(k, i) ←! csmap.Range (items c) (collect now) (k, 0%nat);
  Returned {| done := done c; items := delete_each (items c) k |}.

(** The goroutine [cleaner(c, resolution)]. *)
Inductive cleaner_state : Type :=
  | Spawned (resolution : Z)   (* [go cleaner(c, resolution)] issued *)
  | Selecting                  (* blocked in [select] *)
  | Exited                     (* [return] after [<-c.done] *)
  | Crashed (msg : string).    (* panicked: the process dies *)

(** What wakes the goroutine up. *)
Inductive event : Type :=
  | Start                      (* first scheduling: [time.NewTicker] *)
  | Tick (now : Z)             (* [<-ticker.C], clock read by [cleanup] *)
  | DoneClosed.                (* [<-c.done] *)

(** [time.NewTicker(d)] panics on a non-positive interval. *)
Definition NewTicker (d : Z) : outcome unit :=
  if d <=? 0 then Panicked "non-positive interval for NewTicker"
  else Returned ().

(** One step of [cleaner]; [None] when the event cannot happen in
    this state (a receive on the open [done] channel blocks). *)
Definition cleaner_step (c : Cache) (s : cleaner_state) (e : event)
    : option (Cache * cleaner_state) :=
  match s, e with
  | Spawned resolution, Start =>
      match NewTicker resolution with
      | Returned _ => Some (c, Selecting)
      | Panicked msg => Some (c, Crashed msg)
      end
  | Selecting, Tick now =>
      match cleanup c now with
      | Returned c' => Some (c', Selecting)
      | Panicked msg => Some (c, Crashed msg)
      end
  | Selecting, DoneClosed =>
      match done c with
      | ChanClosed => Some (c, Exited)
      | ChanOpen => None
      end
  | _, _ => None
  end.

(** [func New(resolution time.Duration) *Cache]: the cache and the
    goroutine it starts. *)
Definition New (resolution : Z) : Cache * cleaner_state :=
  let items := csmap.Create defaultCapacity in
  let c := {| done := ChanOpen; items := items |} in
  (c, Spawned resolution).
End ttlcache.

(** ** Vocabulary of the statements *)

Section vocabulary.
Context {V : Type}.
Variable hasher : N → N.

(** The sweep test [value.deadline < now] on a visited pair. *)
Definition expired (now : Z) (p : N * @item V) : Prop := deadline p.2 < now.

#[global] Instance expired_dec now p : Decision (expired now p).
Proof. unfold expired. apply _. Defined.

(** The keys a traversal finds expired, in visiting order. *)
Definition expired_keys (now : Z) (l : list (N * @item V)) : list N :=
  (filter (expired now) l).*1.

(** Every pair sits in the shard its key hashes to. *)
Definition well_sharded (m : csmap.CsMap (@item V)) : Prop :=
  ∀ j key a, (m !!! j) !! key = Some a → j = csmap.getShard hasher key.

(** The cache states a program can reach through the public
    operations and the sweeper. *)
Inductive reachable : @Cache V → Prop :=
  | reach_New resolution : reachable (New resolution).1
  | reach_Set c now key v ttl :
      reachable c → reachable (Set_ hasher c now key v ttl)
  | reach_Delete c key : reachable c → reachable (Delete hasher c key)
  | reach_Clear c : reachable c → reachable (Clear c)
  | reach_Close c c' err :
      reachable c → Close c = Returned (c', err) → reachable c'
  | reach_cleanup c c' now :
      reachable c → cleanup hasher c now = Returned c' → reachable c'.

(** [cleanup] with [Range] visiting the pairs in the order
    [visited], whatever that order is. *)
Definition cleanup_over (visited : list (N * @item V)) (c : @Cache V)
    (now : Z) : outcome (@Cache V) :=
  let k := make (csmap.Count (items c)) in
  '(k, i) ←! csmap.visit_all (collect now) visited (k, 0%nat);
  Returned {| done := done c; items := delete_each hasher (items c) k |}.

(** The slice [k] of [cleanup] when its deletion loop starts, for a
    traversal [visited]: the expired keys, then the zeroes [make]
    put there. *)
Definition swept_keys (visited : list (N * @item V)) (c : @Cache V)
    (now : Z) : list N :=
  expired_keys now visited
    ++ replicate (csmap.Count (items c) - length (expired_keys now visited)) 0%N.

(** The slice and index of [cleanup] after the first [n] visits. *)
Definition scan_prefix (c : @Cache V) (now : Z) (n : nat)
    : outcome (list N * nat) :=
  csmap.visit_all (collect now) (take n (csmap.entries (items c)))
    (make (csmap.Count (items c)), 0%nat).
(** A call a program makes on the cache, or a sweep pass the
    sweeper runs between two calls. *)
Inductive op : Type :=
  | OpGet (key : N)
  | OpSet (now : Z) (key : N) (v : @any V) (ttl : Z)
  | OpDelete (key : N)
  | OpClear
  | OpClose
  | OpSweep (now : Z).

Definition apply_op (o : op) (c : @Cache V) : outcome (@Cache V) :=
  match o with
  | OpGet key => let _ := Get hasher c key in Returned c
  | OpSet now key v ttl => Returned (Set_ hasher c now key v ttl)
  | OpDelete key => Returned (Delete hasher c key)
  | OpClear => Returned (Clear c)
  | OpClose => '(c', _) ←! Close c; Returned c'
  | OpSweep now => cleanup hasher c now
  end.

(** A sequential execution: the calls one after the other, stopping
    at the first panic. *)
Fixpoint run (ops : list op) (c : @Cache V) : outcome (@Cache V) :=
  match ops with
  | [] => Returned c
  | o :: ops' => c' ←! apply_op o c; run ops' c'
  end.

(** How many times a sequence calls [Close]. *)
Definition is_close (o : op) : bool :=
  match o with OpClose => true | _ => false end.

Definition closes (ops : list op) : nat :=
  length (filter (λ o, is_close o = true) ops).

(** [Close] calls already made on a cache: one when [done] is closed. *)
Definition closed_before (c : @Cache V) : nat :=
  match done c with ChanClosed => 1 | ChanOpen => 0 end.
End vocabulary.

(** ** Sample hash function and caches used by the concrete examples *)

(** A Fibonacci hash on 64-bit keys. *)
Definition fib_hasher (key : N) : N :=
  (key * 11400714819323198485 `mod` 2 ^ 64)%N.

(** 2026-10-31T09:00:00Z as Unix nanoseconds. *)
Definition t0 : Z := 1793437200000000000.

Definition ms : Z := 1000000.

(** [New(100ms)]. *)
Definition fresh : @Cache string := (New (100 * ms)).1.

(** [Set(0, "a", 50ms)] on a fresh cache, at [t0]. *)
Definition only_zero : @Cache string :=
  Set_ fib_hasher fresh t0 0%N (Some "a"%string) (50 * ms).

(** The scenario of the specification: resolution 100ms and
    [Set(1, "a", 50ms)] at [t0]. *)
Definition scenario : @Cache string :=
  Set_ fib_hasher fresh t0 1%N (Some "a"%string) (50 * ms).

(** Three entries: keys 0 and 7 with a 50ms ttl, key 9 with 500ms. *)
Definition three : @Cache string :=
  Set_ fib_hasher
    (Set_ fib_hasher only_zero t0 7%N (Some "b"%string) (50 * ms))
    t0 9%N (Some "c"%string) (500 * ms).

(** ** Facts about machine integers *)

Lemma wrap64_id (z : Z) : is_int64 z → wrap64 z = z.
Proof.
  unfold is_int64, int64_min, int64_max, wrap64. intros Hz.
  rewrite Z.mod_small by lia. lia.
Qed.

Lemma wrap64_overflow (z : Z) :
  int64_max < z ≤ int64_max + 2 ^ 64 → wrap64 z = z - 2 ^ 64.
Proof.
  unfold int64_max, wrap64. intros Hz.
  replace (z + 2 ^ 63) with ((z - 2 ^ 64 + 2 ^ 63) + 1 * 2 ^ 64) by lia.
  rewrite Z.mod_add by lia. rewrite Z.mod_small by lia. lia.
Qed.

Lemma wrap64_underflow (z : Z) :
  int64_min - 2 ^ 64 ≤ z < int64_min → wrap64 z = z + 2 ^ 64.
Proof.
  unfold int64_min, wrap64. intros Hz.
  replace (z + 2 ^ 63) with ((z + 2 ^ 64 + 2 ^ 63) + (-1) * 2 ^ 64) by lia.
  rewrite Z.mod_add by lia. rewrite Z.mod_small by lia. lia.
Qed.

Lemma wrap64_is_int64 (z : Z) : is_int64 (wrap64 z).
Proof.
  unfold is_int64, int64_min, int64_max, wrap64.
  pose proof (Z.mod_pos_bound (z + 2 ^ 63) (2 ^ 64)). lia.
Qed.

(** ** Facts about the sharded map *)

Section csmap_facts.
Context {A : Type}.
Variable hasher : N → N.
Implicit Types (m : csmap.CsMap A) (key : N) (a : A).

Lemma Load_Create size key :
  csmap.Load hasher (csmap.Create (A:=A) size) key = None.
Proof.
  unfold csmap.Load, csmap.Create. by rewrite vlookup_replicate, lookup_empty.
Qed.

Lemma Load_Store_eq m key a :
  csmap.Load hasher (csmap.Store hasher m key a) key = Some a.
Proof.
  unfold csmap.Load, csmap.Store. by rewrite vlookup_insert, lookup_insert_eq.
Qed.

Lemma Load_Store_ne m key key' a :
  key ≠ key' →
  csmap.Load hasher (csmap.Store hasher m key a) key' = csmap.Load hasher m key'.
Proof.
  intros Hne. unfold csmap.Load, csmap.Store.
  destruct (decide (csmap.getShard hasher key = csmap.getShard hasher key'))
    as [<-|Hsh].
  - by rewrite vlookup_insert, lookup_insert_ne.
  - by rewrite vlookup_insert_ne.
Qed.

Lemma Load_Delete_eq m key :
  csmap.Load hasher (csmap.Delete hasher m key) key = None.
Proof.
  unfold csmap.Load, csmap.Delete. by rewrite vlookup_insert, lookup_delete_eq.
Qed.

Lemma Load_Delete_ne m key key' :
  key ≠ key' →
  csmap.Load hasher (csmap.Delete hasher m key) key' = csmap.Load hasher m key'.
Proof.
  intros Hne. unfold csmap.Load, csmap.Delete.
  destruct (decide (csmap.getShard hasher key = csmap.getShard hasher key'))
    as [<-|Hsh].
  - by rewrite vlookup_insert, lookup_delete_ne.
  - by rewrite vlookup_insert_ne.
Qed.

Lemma Load_Delete m key key' :
  csmap.Load hasher (csmap.Delete hasher m key) key' =
  if decide (key = key') then None else csmap.Load hasher m key'.
Proof.
  case_decide as Hk; [subst; apply Load_Delete_eq | by apply Load_Delete_ne].
Qed.

(** Deleting a key that is not there changes nothing. *)
Lemma Delete_absent m key :
  csmap.Load hasher m key = None → csmap.Delete hasher m key = m.
Proof.
  unfold csmap.Load, csmap.Delete. intros Hnone.
  rewrite delete_id by done. apply vlookup_insert_self.
Qed.

Lemma Delete_Delete m key :
  csmap.Delete hasher (csmap.Delete hasher m key) key = csmap.Delete hasher m key.
Proof. apply Delete_absent, Load_Delete_eq. Qed.

Lemma Load_Clear m key : csmap.Load hasher (csmap.Clear m) key = None.
Proof.
  unfold csmap.Load, csmap.Clear. by rewrite vlookup_map, lookup_empty.
Qed.

Lemma entries_Clear m : csmap.entries (csmap.Clear m) = [].
Proof.
  unfold csmap.entries, csmap.Clear. rewrite vec_to_list_map.
  induction (vec_to_list m) as [|s l IH]; [done|].
  cbn. rewrite map_to_list_empty. exact IH.
Qed.

Lemma length_entries m : length (csmap.entries m) = csmap.Count m.
Proof.
  unfold csmap.entries, csmap.Count.
  rewrite length_join, <- list_fmap_compose. f_equal.
  apply list_fmap_ext. intros i s _. apply length_map_to_list.
Qed.

(** [Range] reaches every pair that [Load] can find. *)
Lemma elem_of_entries m key a :
  csmap.Load hasher m key = Some a → (key, a) ∈ csmap.entries m.
Proof.
  unfold csmap.Load, csmap.entries. intros Hload.
  apply list_elem_of_join.
  exists (map_to_list (m !!! csmap.getShard hasher key)). split.
  - by apply elem_of_map_to_list.
  - apply list_elem_of_fmap_2, elem_of_vlookup. eauto.
Qed.

(** Deleting a list of keys one by one. *)
Lemma Load_foldl_Delete (ks : list N) m key :
  csmap.Load hasher (foldl (csmap.Delete hasher) m ks) key =
  if decide (key ∈ ks) then None else csmap.Load hasher m key.
Proof.
  revert m. induction ks as [|d ks IH]; intros m; cbn.
  - case_decide as Hin; [by apply elem_of_nil in Hin | done].
  - rewrite IH. destruct (decide (key ∈ ks)) as [Hin|Hin].
    + rewrite decide_True by (by right). done.
    + rewrite Load_Delete. destruct (decide (d = key)) as [->|Hne].
      * rewrite decide_True by left. done.
      * rewrite decide_False; [done|].
        intros [->|?]%elem_of_cons; done.
Qed.
End csmap_facts.

(** ** The sweep pass *)

Section cleanup_facts.
Context {V : Type}.
Variable hasher : N → N.
Implicit Types (c : @Cache V) (k ks : list N) (l : list (N * @item V)).

Lemma expired_keys_nil now : expired_keys (V:=V) now [] = [].
Proof. done. Qed.

Lemma expired_keys_cons now key (it : @item V) l :
  expired_keys now ((key, it) :: l) =
  if decide (deadline it < now) then key :: expired_keys now l
  else expired_keys now l.
Proof.
  unfold expired_keys. rewrite filter_cons. unfold expired at 1. cbn.
  repeat case_decide; done.
Qed.

Lemma expired_keys_app now l1 l2 :
  expired_keys now (l1 ++ l2) = expired_keys now l1 ++ expired_keys now l2.
Proof. unfold expired_keys. by rewrite filter_app, fmap_app. Qed.

Lemma length_expired_keys now l : (length (expired_keys now l) ≤ length l)%nat.
Proof. unfold expired_keys. rewrite length_fmap. apply length_filter. Qed.

Lemma elem_of_expired_keys now l key :
  key ∈ expired_keys now l ↔ ∃ it, (key, it) ∈ l ∧ deadline it < now.
Proof.
  unfold expired_keys. rewrite list_elem_of_fmap. split.
  - intros [[key' it] [-> [Hexp Hin]%list_elem_of_filter]]. by exists it.
  - intros [it [Hin Hexp]]. exists (key, it). split; [done|].
    by apply list_elem_of_filter.
Qed.

(** The scan phase: as long as the expired keys fit, the closure
    writes them at [i], [i+1], ... and never panics. *)
Lemma scan_spec now l : ∀ k (i : nat),
  (i + length (expired_keys now l) ≤ length k)%nat →
  csmap.visit_all (collect now) l (k, i) =
  Returned (take i k ++ expired_keys now l
              ++ drop (i + length (expired_keys now l)) k,
            (i + length (expired_keys now l))%nat).
Proof.
  induction l as [|[key it] l IH]; intros k i Hfit.
  - cbn. rewrite Nat.add_0_r, take_drop. done.
  - rewrite expired_keys_cons in Hfit |- *. cbn [csmap.visit_all].
    unfold collect at 1. destruct (Z.ltb_spec (deadline it) now) as [Hlt|Hge].
    + rewrite decide_True in Hfit |- * by done. cbn [length] in Hfit |- *.
      unfold slice_store. rewrite decide_True by lia. cbn [obind].
      rewrite IH by (rewrite length_insert; lia).
      rewrite (take_S_r _ _ key) by (apply list_lookup_insert_eq; lia).
      rewrite take_insert_ge by lia.
      rewrite drop_insert_lt by lia.
      rewrite <- app_assoc. cbn. by rewrite Nat.add_succ_r.
    + rewrite decide_False in Hfit |- * by lia. cbn [obind].
      by apply IH.
Qed.

(** [cleanup] is the pass over the traversal [Range] makes. *)
Lemma cleanup_entries c now :
  cleanup hasher c now = cleanup_over hasher (csmap.entries (items c)) c now.
Proof. reflexivity. Qed.

Lemma cleanup_over_eq visited c now :
  (length (expired_keys now visited) ≤ csmap.Count (items c))%nat →
  cleanup_over hasher visited c now =
  Returned {| done := done c;
              items := delete_each hasher (items c) (swept_keys visited c now) |}.
Proof.
  intros Hfit. unfold cleanup_over, make, swept_keys.
  rewrite scan_spec by (rewrite length_replicate; lia).
  cbn. by rewrite drop_replicate.
Qed.

Lemma cleanup_eq c now :
  cleanup hasher c now =
  Returned {| done := done c;
              items := delete_each hasher (items c)
                         (swept_keys (csmap.entries (items c)) c now) |}.
Proof.
  rewrite cleanup_entries.
  apply cleanup_over_eq. rewrite <- length_entries. apply length_expired_keys.
Qed.

Lemma elem_of_swept_keys visited c now key :
  key ∈ swept_keys visited c now ↔
  key ∈ expired_keys now visited ∨
  (key = 0%N ∧ (length (expired_keys now visited) < csmap.Count (items c))%nat).
Proof.
  unfold swept_keys. rewrite elem_of_app, elem_of_replicate.
  split; (intros [?|[? ?]]; [by left | right; split; [done | lia]]).
Qed.

(** What a sweep pass leaves in the store, for any traversal order
    whose expired keys fit the slice. *)
Lemma Load_cleanup_over visited c now :
  (length (expired_keys now visited) ≤ csmap.Count (items c))%nat →
  ∃ c', cleanup_over hasher visited c now = Returned c' ∧
        done c' = done c ∧
        ∀ key, csmap.Load hasher (items c') key =
               if decide (key ∈ swept_keys visited c now) then None
               else csmap.Load hasher (items c) key.
Proof.
  intros Hfit. eexists. split; [by apply cleanup_over_eq|].
  split; [done|]. intros key. cbn. apply Load_foldl_Delete.
Qed.

Lemma Load_cleanup c now :
  ∃ c', cleanup hasher c now = Returned c' ∧
        done c' = done c ∧
        ∀ key, csmap.Load hasher (items c') key =
               if decide (key ∈ swept_keys (csmap.entries (items c)) c now)
               then None else csmap.Load hasher (items c) key.
Proof.
  rewrite cleanup_entries.
  apply Load_cleanup_over. rewrite <- length_entries. apply length_expired_keys.
Qed.

(** A sweep pass never panics. *)
Lemma cleanup_returns c now : returns (cleanup hasher c now).
Proof. eexists. apply cleanup_eq. Qed.

(** An expired entry is gone after the pass. *)
Lemma cleanup_removes_expired c c' now key it :
  cleanup hasher c now = Returned c' →
  csmap.Load hasher (items c) key = Some it →
  deadline it < now →
  csmap.Load hasher (items c') key = None.
Proof.
  intros Hrun Hload Hexp.
  destruct (Load_cleanup c now) as (c2 & Hrun2 & _ & Hspec).
  rewrite Hrun in Hrun2. injection Hrun2 as <-.
  rewrite Hspec, decide_True; [done|].
  apply elem_of_swept_keys. left. apply elem_of_expired_keys.
  exists it. split; [by apply (elem_of_entries hasher) | done].
Qed.

(** A sweep pass adds nothing. *)
Lemma cleanup_only_removes c c' now key it :
  cleanup hasher c now = Returned c' →
  csmap.Load hasher (items c') key = Some it →
  csmap.Load hasher (items c) key = Some it.
Proof.
  intros Hrun.
  destruct (Load_cleanup c now) as (c2 & Hrun2 & _ & Hspec).
  rewrite Hrun in Hrun2. injection Hrun2 as <-.
  rewrite Hspec. by case_decide.
Qed.

(** Key 0, when stored, never survives a pass: if it is expired it
    is collected, and if it is not, the slice keeps a trailing zero
    and the deletion loop deletes key 0. *)
Lemma cleanup_removes_key_zero c c' now it :
  cleanup hasher c now = Returned c' →
  csmap.Load hasher (items c) 0%N = Some it →
  csmap.Load hasher (items c') 0%N = None.
Proof.
  intros Hrun Hload.
  destruct (decide (deadline it < now)) as [Hexp|Hlive].
  { by eapply cleanup_removes_expired. }
  destruct (Load_cleanup c now) as (c2 & Hrun2 & _ & Hspec).
  rewrite Hrun in Hrun2. injection Hrun2 as <-.
  rewrite Hspec, decide_True; [done|].
  apply elem_of_swept_keys. right. split; [done|].
  rewrite <- length_entries. unfold expired_keys. rewrite length_fmap.
  apply (length_filter_lt _ _ (0%N, it)); [|done].
  by apply (elem_of_entries hasher).
Qed.
End cleanup_facts.

(** ** The sharding invariant *)

Section sharding.
Context {V : Type}.
Variable hasher : N → N.
Implicit Types (c : @Cache V) (m : csmap.CsMap (@item V)).

Lemma well_sharded_Create size :
  well_sharded hasher (csmap.Create (A:=@item V) size).
Proof.
  intros j key a. unfold csmap.Create.
  by rewrite vlookup_replicate, lookup_empty.
Qed.

Lemma well_sharded_Clear m : well_sharded hasher (csmap.Clear m).
Proof.
  intros j key a. unfold csmap.Clear. by rewrite vlookup_map, lookup_empty.
Qed.

Lemma well_sharded_Store m key it :
  well_sharded hasher m → well_sharded hasher (csmap.Store hasher m key it).
Proof.
  intros Hwf j key' a. unfold csmap.Store.
  destruct (decide (csmap.getShard hasher key = j)) as [<-|Hj].
  - rewrite vlookup_insert.
    destruct (decide (key = key')) as [<-|Hk]; [done|].
    rewrite lookup_insert_ne by done. apply Hwf.
  - rewrite vlookup_insert_ne by done. apply Hwf.
Qed.

Lemma well_sharded_Delete m key :
  well_sharded hasher m → well_sharded hasher (csmap.Delete hasher m key).
Proof.
  intros Hwf j key' a. unfold csmap.Delete.
  destruct (decide (csmap.getShard hasher key = j)) as [<-|Hj].
  - rewrite vlookup_insert.
    destruct (decide (key = key')) as [<-|Hk]; [done|].
    rewrite lookup_delete_ne by done. apply Hwf.
  - rewrite vlookup_insert_ne by done. apply Hwf.
Qed.

Lemma well_sharded_delete_each m ks :
  well_sharded hasher m → well_sharded hasher (delete_each hasher m ks).
Proof.
  unfold delete_each. revert m.
  induction ks as [|d ks IH]; intros m Hwf; cbn; [done|].
  by apply IH, well_sharded_Delete.
Qed.

(** Every reachable cache keeps each key in its own shard. *)
Lemma reachable_well_sharded c :
  reachable hasher c → well_sharded hasher (items c).
Proof.
  induction 1 as [r|c now key v ttl _ IH|c key _ IH|c _ _
                  |c c' err _ _ Hclose|c c' now _ IH Hrun]; cbn.
  - apply (well_sharded_Create defaultCapacity).
  - by apply well_sharded_Store.
  - by apply well_sharded_Delete.
  - apply well_sharded_Clear.
  - unfold Close in Hclose. destruct (close (done c)); [|done].
    cbn in Hclose. injection Hclose as <- _. apply well_sharded_Clear.
  - rewrite cleanup_eq in Hrun. injection Hrun as <-. cbn.
    by apply well_sharded_delete_each.
Qed.

(** In a well-sharded store [Range] visits exactly what [Load] finds. *)
Lemma entries_Load m key it :
  well_sharded hasher m →
  (key, it) ∈ csmap.entries m → csmap.Load hasher m key = Some it.
Proof.
  intros Hwf (l & Hin & Hl)%list_elem_of_join.
  apply list_elem_of_fmap in Hl as (s & -> & Hs).
  apply elem_of_vlookup in Hs as [j <-].
  apply elem_of_map_to_list in Hin.
  unfold csmap.Load. by rewrite <- (Hwf j key it Hin).
Qed.

(** An entry that is not expired, under a key other than 0,
    survives the pass. *)
Lemma cleanup_keeps_live c c' now key it :
  well_sharded hasher (items c) →
  cleanup hasher c now = Returned c' →
  key ≠ 0%N →
  csmap.Load hasher (items c) key = Some it →
  now ≤ deadline it →
  csmap.Load hasher (items c') key = Some it.
Proof.
  intros Hwf Hrun Hkey Hload Hlive.
  destruct (Load_cleanup hasher c now) as (c2 & Hrun2 & _ & Hspec).
  rewrite Hrun in Hrun2. injection Hrun2 as <-.
  rewrite Hspec, decide_False; [done|].
  intros [Hexp|[? _]]%elem_of_swept_keys; [|done].
  apply elem_of_expired_keys in Hexp as (it' & Hin & Hlt).
  apply (entries_Load _ _ _ Hwf) in Hin. simplify_eq. lia.
Qed.

(** X11. The pass does not depend on the order in which [Range]
    visits the pairs: for any traversal that is a permutation of the
    store's pairs it returns, and leaves the same [done] and the same
    lookups as [cleanup]. *)
Lemma cleanup_over_Permutation visited c now :
  visited ≡ₚ csmap.entries (items c) →
  ∃ c1 c2, cleanup_over hasher visited c now = Returned c1 ∧
           cleanup hasher c now = Returned c2 ∧
           done c1 = done c2 ∧
           ∀ key, csmap.Load hasher (items c1) key =
                  csmap.Load hasher (items c2) key.
Proof.
  intros Hperm.
  assert (expired_keys now visited ≡ₚ expired_keys now (csmap.entries (items c)))
    as Hkeys by (unfold expired_keys; by rewrite Hperm).
  destruct (Load_cleanup hasher c now) as (c2 & Hrun2 & Hd2 & Hspec2).
  destruct (Load_cleanup_over hasher visited c now) as (c1 & Hrun1 & Hd1 & Hspec1).
  { rewrite Hkeys, <- length_entries. apply length_expired_keys. }
  exists c1, c2. repeat split; [done|done|congruence|].
  intros key. rewrite Hspec1, Hspec2.
  assert (key ∈ swept_keys visited c now ↔
          key ∈ swept_keys (csmap.entries (items c)) c now) as Hiff.
  { rewrite !elem_of_swept_keys. by rewrite Hkeys. }
  repeat case_decide; tauto || done.
Qed.
End sharding.

(** ** The public operations *)

Section operations.
Context {V : Type}.
Variable hasher : N → N.
Implicit Types (c : @Cache V) (key : N) (v : @any V).

Lemma Get_absent c key :
  csmap.Load hasher (items c) key = None → Get hasher c key = (None, false).
Proof. unfold Get. by intros ->. Qed.

Lemma Get_Clear c key : Get hasher (Clear c) key = (None, false).
Proof. apply Get_absent, Load_Clear. Qed.

Lemma Get_Set_eq c now key v ttl :
  Get hasher (Set_ hasher c now key v ttl) key = (v, true).
Proof. unfold Get, Set_. cbn. by rewrite Load_Store_eq. Qed.

(** A sweep pass over an empty store does nothing. *)
Lemma cleanup_Clear c now : cleanup hasher (Clear c) now = Returned (Clear c).
Proof.
  rewrite cleanup_eq. unfold swept_keys. cbn [items Clear].
  rewrite <- length_entries, entries_Clear. done.
Qed.

(** C2 (as amended). For every key, value and ttl > 0, and every prior
    state: right after [Set(k, v, t)], [Get(k)] returns [(v, true)]
    and the item stored under [k] carries the deadline Go's [int64]
    addition gives for [now + t]: the exact sum when it fits, the sum
    minus 2^64 when it overflows. *)
Theorem Set_then_Get c now key v ttl :
  is_int64 now → is_int64 ttl → 0 < ttl →
  Get hasher (Set_ hasher c now key v ttl) key = (v, true) ∧
  csmap.Load hasher (items (Set_ hasher c now key v ttl)) key =
    Some {| deadline := add64 now ttl; value := v |} ∧
  add64 now ttl =
    if decide (now + ttl ≤ int64_max) then now + ttl
    else now + ttl - 2 ^ 64.
Proof.
  intros Hnow Httl Hpos. split; [apply Get_Set_eq|]. split.
  - unfold Set_. cbn. apply Load_Store_eq.
  - unfold add64. unfold is_int64, int64_min, int64_max in *. case_decide.
    + apply wrap64_id. unfold is_int64, int64_min, int64_max. lia.
    + apply wrap64_overflow. unfold int64_max. lia.
Qed.

(** C3. [Get] never looks at the deadline: whatever item the store
    holds under [k], [Get(k)] returns its value and [true]; the clock
    is not an input of [Get]. *)
Theorem Get_ignores_deadline c key (it : @item V) :
  csmap.Load hasher (items c) key = Some it →
  Get hasher c key = (value it, true).
Proof. unfold Get. by intros ->. Qed.

(** C4 (as amended). A second [Close], on the cache a first [Close]
    returned, panics with Go's "close of closed channel". *)
Theorem second_Close_panics c c' err :
  Close c = Returned (c', err) →
  Close c' = Panicked "close of closed channel".
Proof.
  unfold Close. destruct (done c) eqn:Hdone; cbn; [|done].
  intros [= <- _]. done.
Qed.

(** C5 (as amended). A non-positive duration is never rejected.
    [New(d)] returns an open, empty cache; the sweeper it starts
    panics in [time.NewTicker] at its first step. [Set(k, v, d)]
    stores the item, with the deadline Go's addition gives for
    [now + d], which is not after [now] unless the sum underflows. *)
Theorem nonpositive_duration_unchecked (d : Z) :
  d ≤ 0 →
  (∃ c0, New (V:=V) d = (c0, Spawned d) ∧
         done c0 = ChanOpen ∧
         (∀ key, Get hasher c0 key = (None, false)) ∧
         cleaner_step hasher c0 (Spawned d) Start =
           Some (c0, Crashed "non-positive interval for NewTicker")) ∧
  (∀ c now key v,
     Get hasher (Set_ hasher c now key v d) key = (v, true) ∧
     csmap.Load hasher (items (Set_ hasher c now key v d)) key =
       Some {| deadline := add64 now d; value := v |} ∧
     (int64_min ≤ now + d → is_int64 now →
      add64 now d = now + d ∧ add64 now d ≤ now)).
Proof.
  intros Hd. split.
  - eexists. split; [reflexivity|]. split; [done|]. split.
    + intros key. apply Get_absent. cbn. apply (Load_Create _ defaultCapacity).
    + cbn. unfold NewTicker. destruct (Z.leb_spec d 0); [done|lia].
  - intros c now key v. split; [apply Get_Set_eq|]. split.
    + unfold Set_. cbn. apply Load_Store_eq.
    + intros Hlow Hnow. unfold add64. rewrite wrap64_id; [lia|].
      unfold is_int64 in *. lia.
Qed.

(** C6. Right after [Delete(k)], [Get(k)] returns [(nil, false)],
    whatever the cache held before, also right after a [Set] on [k]. *)
Theorem Delete_then_Get c key :
  Get hasher (Delete hasher c key) key = (None, false) ∧
  ∀ now v ttl,
    Get hasher (Delete hasher (Set_ hasher c now key v ttl) key) key
    = (None, false).
Proof.
  assert (∀ c0, Get hasher (Delete hasher c0 key) key = (None, false)) as H.
  { intros c0. apply Get_absent. cbn. apply Load_Delete_eq. }
  split; [apply H|]. intros. apply H.
Qed.

(** C7. [Delete(k)] on a key the store does not hold leaves the cache
    as it was; hence deleting twice is the same as deleting once. *)
Theorem Delete_absent_noop c key :
  (csmap.Load hasher (items c) key = None → Delete hasher c key = c) ∧
  Delete hasher (Delete hasher c key) key = Delete hasher c key.
Proof.
  split.
  - intros Habs. destruct c as [d m]. unfold Delete. cbn in *.
    by rewrite Delete_absent.
  - unfold Delete. cbn. by rewrite Delete_Delete.
Qed.

(** C8. [Clear()] empties the store and touches nothing else: the
    [done] channel is as before, so on every event the sweeper
    moves to the state it would have moved to; a tick over the
    cleared store leaves it running; and a later [Set] is visible to
    [Get] and is evicted by a tick after its deadline. *)
Theorem Clear_keeps_sweeper c :
  (∀ key, Get hasher (Clear c) key = (None, false)) ∧
  done (Clear c) = done c ∧
  (∀ s e, snd <$> cleaner_step hasher (Clear c) s e =
          snd <$> cleaner_step hasher c s e) ∧
  (∀ now, cleaner_step hasher (Clear c) Selecting (Tick now) =
          Some (Clear c, Selecting)) ∧
  (∀ now key v ttl,
     Get hasher (Set_ hasher (Clear c) now key v ttl) key = (v, true) ∧
     ∀ now', add64 now ttl < now' →
       ∃ c', cleaner_step hasher (Set_ hasher (Clear c) now key v ttl)
               Selecting (Tick now') = Some (c', Selecting) ∧
             Get hasher c' key = (None, false)).
Proof.
  split; [apply Get_Clear|]. split; [done|]. split; [|split].
  - intros s e. destruct s as [r| | |msg], e as [|now|]; cbn; try done.
    + by destruct (NewTicker r).
    + destruct (cleanup_returns hasher (Clear c) now) as [c1 ->].
      by destruct (cleanup_returns hasher c now) as [c2 ->].
    + by destruct (done c).
  - intros now. cbn. by rewrite cleanup_Clear.
  - intros now key v ttl. split; [apply Get_Set_eq|].
    intros now' Hpast.
    destruct (cleanup_returns hasher (Set_ hasher (Clear c) now key v ttl) now')
      as [c' Hrun].
    exists c'. cbn. rewrite Hrun. split; [done|].
    apply Get_absent. eapply cleanup_removes_expired; [done|..].
    + unfold Set_. cbn. apply Load_Store_eq.
    + done.
Qed.

(** C9. The first [Close()] on an open cache closes the [done]
    channel, clears the store and returns [nil]: afterwards every
    [Get] returns [(nil, false)] and the sweeper, which could not
    leave its loop before, can take the exit branch of its [select]. *)
Theorem Close_open c :
  done c = ChanOpen →
  ∃ c', Close c = Returned (c', None) ∧
        done c' = ChanClosed ∧
        items c' = csmap.Clear (items c) ∧
        (∀ key, Get hasher c' key = (None, false)) ∧
        cleaner_step hasher c Selecting DoneClosed = None ∧
        cleaner_step hasher c' Selecting DoneClosed = Some (c', Exited).
Proof.
  intros Hopen. unfold Close. rewrite Hopen. cbn.
  eexists. split; [reflexivity|]. cbn. rewrite Hopen.
  repeat split. intros key. apply Get_Clear.
Qed.

(** C10. In a sweep pass the index [i] never exceeds the length of
    the slice allocated from [Count()]: after any number of visits
    the scan has returned, the slice still has [Count()] cells,
    [i] is at most that length, and strictly below it whenever the
    next visited item is expired (the write [k[i]] is in bounds); the
    expired entries are at most [Count()] many, and the whole pass
    returns without panicking. *)
Theorem cleanup_index_in_bounds c now (n : nat) :
  (∃ k i, scan_prefix c now n = Returned (k, i) ∧
          length k = csmap.Count (items c) ∧
          (i ≤ length k)%nat ∧
          (∀ key it, csmap.entries (items c) !! n = Some (key, it) →
                     deadline it < now → (i < length k)%nat)) ∧
  (length (expired_keys now (csmap.entries (items c)))
   ≤ csmap.Count (items c))%nat ∧
  returns (cleanup hasher c now).
Proof.
  split; [|split; [|apply cleanup_returns]]; cycle 1.
  { rewrite <- length_entries. apply length_expired_keys. }
  set (l := csmap.entries (items c)).
  assert (length (expired_keys now (take n l)) ≤ csmap.Count (items c))%nat
    as Hfit.
  { etrans; [apply length_expired_keys|].
    rewrite length_take, <- length_entries. fold l. lia. }
  unfold scan_prefix, make. fold l.
  rewrite scan_spec by (rewrite length_replicate; lia).
  eexists _, _. split; [reflexivity|]. cbn [Nat.add].
  rewrite !length_app, length_take, length_drop, length_replicate.
  split; [lia|]. split; [lia|].
  intros key it Hnext Hexp.
  assert (length (expired_keys now (take (S n) l)) ≤ length l)%nat as Hnext_fit.
  { etrans; [apply length_expired_keys|]. rewrite length_take. lia. }
  rewrite (take_S_r _ _ _ Hnext), expired_keys_app in Hnext_fit.
  rewrite expired_keys_cons, decide_True in Hnext_fit by done.
  rewrite length_app in Hnext_fit. cbn in Hnext_fit.
  subst l. rewrite length_entries in Hnext_fit. lia.
Qed.
End operations.

(** ** The operations on concrete caches *)

Local Open Scope string_scope.

Lemma is_int64_t0 : is_int64 t0.
Proof. unfold is_int64, int64_min, int64_max, t0. lia. Qed.

(** C1. A cache holding only key 0, set at [t0] with a 50ms ttl, is
    swept one nanosecond later: the item is not expired, yet the pass
    deletes it, because the deletion loop also runs over the zero the
    slice was allocated with. *)
Theorem cleanup_deletes_live_key_zero :
  Get fib_hasher only_zero 0%N = (Some "a", true) ∧
  deadline <$> csmap.Load fib_hasher (items only_zero) 0%N = Some (t0 + 50 * ms) ∧
  t0 + 1 ≤ t0 + 50 * ms ∧
  (c' ←! cleanup fib_hasher only_zero (t0 + 1);
   Returned (Get fib_hasher c' 0%N)) = Returned (None, false).
Proof.
  split; [by vm_compute|]. split; [by vm_compute|].
  split; [unfold t0, ms; lia|]. by vm_compute.
Qed.

(** With three entries and nothing expired, the pass still deletes
    key 0 and only key 0. *)
Example cleanup_three_fresh :
  (c' ←! cleanup fib_hasher three (t0 + 1);
   Returned (Get fib_hasher c' 0%N, Get fib_hasher c' 7%N, Get fib_hasher c' 9%N))
  = Returned ((None, false), (Some "b", true), (Some "c", true)).
Proof. by vm_compute. Qed.

(** After 100ms keys 0 and 7 are expired and collected; key 9 stays. *)
Example cleanup_three_later :
  (c' ←! cleanup fib_hasher three (t0 + 100 * ms);
   Returned (Get fib_hasher c' 0%N, Get fib_hasher c' 7%N, Get fib_hasher c' 9%N))
  = Returned ((None, false), (None, false), (Some "c", true)).
Proof. by vm_compute. Qed.

(** C2, as first stated, fails when the sum leaves [int64]: with the
    largest duration as ttl the stored deadline is negative, not
    [now + t]. *)
Lemma Set_deadline_wraps_example :
  is_int64 t0 ∧ is_int64 int64_max ∧ 0 < int64_max ∧
  deadline <$> csmap.Load fib_hasher
                 (items (Set_ fib_hasher fresh t0 1%N (Some "a") int64_max)) 1%N
    = Some (-7429934836854775809) ∧
  csmap.Load fib_hasher
    (items (Set_ fib_hasher fresh t0 1%N (Some "a") int64_max)) 1%N
    ≠ Some {| deadline := t0 + int64_max; value := Some "a" |}.
Proof.
  split; [apply is_int64_t0|].
  split; [unfold is_int64, int64_min, int64_max; lia|].
  split; [unfold int64_max; lia|].
  split; [by vm_compute|]. by vm_compute.
Qed.

Lemma Set_then_Get_witness :
  (is_int64 t0 ∧ is_int64 (50 * ms) ∧ 0 < 50 * ms) ∧
  Get fib_hasher (Set_ fib_hasher three t0 7%N (Some "z") (50 * ms)) 7%N
    = (Some "z", true) ∧
  csmap.Load fib_hasher
    (items (Set_ fib_hasher three t0 7%N (Some "z") (50 * ms))) 7%N
    = Some {| deadline := add64 t0 (50 * ms); value := Some "z" |} ∧
  add64 t0 (50 * ms) =
    if decide (t0 + 50 * ms ≤ int64_max) then t0 + 50 * ms
    else t0 + 50 * ms - 2 ^ 64.
Proof.
  assert (is_int64 t0 ∧ is_int64 (50 * ms) ∧ 0 < 50 * ms) as Hin.
  { unfold is_int64, int64_min, int64_max, t0, ms. lia. }
  split; [exact Hin|].
  apply (Set_then_Get fib_hasher three t0 7%N (Some "z") (50 * ms)); apply Hin.
Defined.

(** At 60ms the deadline of the scenario's item has passed and no
    sweep has run: [Get(1)] still returns it. *)
Lemma Get_ignores_deadline_witness :
  csmap.Load fib_hasher (items scenario) 1%N
    = Some {| deadline := t0 + 50 * ms; value := Some "a" |} ∧
  t0 + 50 * ms < t0 + 60 * ms ∧
  Get fib_hasher scenario 1%N = (Some "a", true).
Proof.
  assert (csmap.Load fib_hasher (items scenario) 1%N
          = Some {| deadline := t0 + 50 * ms; value := Some "a" |}) as Hload.
  { by vm_compute. }
  split; [exact Hload|]. split; [unfold t0, ms; lia|].
  apply (Get_ignores_deadline fib_hasher scenario 1%N _ Hload).
Defined.

(** The rest of the scenario: the sweeper starts, its first tick at
    100ms evicts the item, and after [Close] it leaves its loop. *)
Example scenario_sweep :
  ∃ c1 c2,
    cleaner_step fib_hasher scenario (Spawned (100 * ms)) Start
      = Some (scenario, Selecting) ∧
    cleaner_step fib_hasher scenario Selecting (Tick (t0 + 100 * ms))
      = Some (c1, Selecting) ∧
    Get fib_hasher c1 1%N = (None, false) ∧
    Close c1 = Returned (c2, None) ∧
    cleaner_step fib_hasher c2 Selecting DoneClosed = Some (c2, Exited) ∧
    cleaner_step fib_hasher c2 Exited (Tick (t0 + 200 * ms)) = None.
Proof.
  eexists _, _. split; [reflexivity|]. split; [by vm_compute|].
  split; [by vm_compute|]. split; [reflexivity|]. split; reflexivity.
Qed.

(** C4, as first stated, fails: a second [Close] panics. *)
Lemma Close_twice_example :
  (r ←! Close three; Close r.1) = Panicked "close of closed channel".
Proof. by vm_compute. Qed.

Lemma second_Close_panics_witness :
  Close three
    = Returned ({| done := ChanClosed; items := csmap.Clear (items three) |}, None) ∧
  Close {| done := ChanClosed; items := csmap.Clear (items three) |}
    = Panicked "close of closed channel".
Proof.
  assert (Close three
          = Returned ({| done := ChanClosed;
                         items := csmap.Clear (items three) |}, None)) as Hfirst.
  { reflexivity. }
  split; [exact Hfirst|].
  apply (second_Close_panics three _ None Hfirst).
Defined.

(** C5, as first stated, fails: [New(0)] builds a cache and
    [Set] with ttl -1 stores an item whose deadline is already past. *)
Lemma nonpositive_durations_example :
  (New (V:=string) 0).1
    = {| done := ChanOpen; items := csmap.Create defaultCapacity |} ∧
  Get fib_hasher (Set_ fib_hasher fresh t0 1%N (Some "a") (-1)) 1%N
    = (Some "a", true) ∧
  deadline <$> csmap.Load fib_hasher
                 (items (Set_ fib_hasher fresh t0 1%N (Some "a") (-1))) 1%N
    = Some (t0 - 1) ∧
  t0 - 1 < t0.
Proof.
  split; [reflexivity|]. split; [by vm_compute|].
  split; [by vm_compute|]. lia.
Qed.

Lemma nonpositive_duration_unchecked_witness :
  -1 ≤ 0 ∧
  Get fib_hasher (Set_ fib_hasher fresh t0 1%N (Some "a") (-1)) 1%N
    = (Some "a", true).
Proof.
  assert (-1 ≤ 0) as Hd by lia.
  split; [exact Hd|].
  apply (proj2 (nonpositive_duration_unchecked (V:=string) fib_hasher (-1) Hd)).
Defined.

Lemma Delete_absent_noop_witness :
  csmap.Load fib_hasher (items only_zero) 5%N = None ∧
  Delete fib_hasher only_zero 5%N = only_zero.
Proof.
  assert (csmap.Load fib_hasher (items only_zero) 5%N = None) as Habs.
  { by vm_compute. }
  split; [exact Habs|].
  apply (proj1 (Delete_absent_noop fib_hasher only_zero 5%N) Habs).
Defined.

Lemma Clear_keeps_sweeper_witness :
  add64 t0 (50 * ms) < t0 + 100 * ms ∧
  ∃ c', cleaner_step fib_hasher
          (Set_ fib_hasher (Clear three) t0 3%N (Some "d") (50 * ms))
          Selecting (Tick (t0 + 100 * ms)) = Some (c', Selecting) ∧
        Get fib_hasher c' 3%N = (None, false).
Proof.
  assert (add64 t0 (50 * ms) < t0 + 100 * ms) as Hpast by (by vm_compute).
  split; [exact Hpast|].
  destruct (Clear_keeps_sweeper fib_hasher three) as (_ & _ & _ & _ & Hcycle).
  destruct (Hcycle t0 3%N (Some "d") (50 * ms)) as [_ Hevict].
  exact (Hevict (t0 + 100 * ms) Hpast).
Defined.

Lemma Close_open_witness :
  done three = ChanOpen ∧
  ∃ c', Close three = Returned (c', None) ∧
        done c' = ChanClosed ∧
        items c' = csmap.Clear (items three) ∧
        (∀ key, Get fib_hasher c' key = (None, false)) ∧
        cleaner_step fib_hasher three Selecting DoneClosed = None ∧
        cleaner_step fib_hasher c' Selecting DoneClosed = Some (c', Exited).
Proof.
  assert (done three = ChanOpen) as Hopen by reflexivity.
  split; [exact Hopen|].
  apply (Close_open fib_hasher three Hopen).
Defined.

Lemma cleanup_index_in_bounds_witness :
  csmap.entries (items three) !! 1%nat
    = Some (7%N, {| deadline := t0 + 50 * ms; value := Some "b" |}) ∧
  t0 + 50 * ms < t0 + 100 * ms ∧
  ∃ k i, scan_prefix three (t0 + 100 * ms) 1 = Returned (k, i) ∧
         (i < length k)%nat.
Proof.
  assert (csmap.entries (items three) !! 1%nat
          = Some (7%N, {| deadline := t0 + 50 * ms; value := Some "b" |}))
    as Hnext by (by vm_compute).
  assert (t0 + 50 * ms < t0 + 100 * ms) as Hexp by (unfold t0, ms; lia).
  split; [exact Hnext|]. split; [exact Hexp|].
  destruct (proj1 (cleanup_index_in_bounds fib_hasher three (t0 + 100 * ms) 1))
    as (k & i & Hscan & _ & _ & Hwrite).
  exists k, i. split; [exact Hscan|].
  exact (Hwrite _ _ Hnext Hexp).
Defined.

(** ** The store up to its lookups *)

Section csmap_algebra.
Context {A : Type}.
Variable hasher : N → N.
Implicit Types (m : csmap.CsMap A) (key : N) (a : A).

Lemma csmap_ext m1 m2 :
  (∀ j key, (m1 !!! j) !! key = (m2 !!! j) !! key) → m1 = m2.
Proof. intros Hext. apply vec_eq. intros j. apply map_eq, Hext. Qed.

Lemma shard_lookup_Store m key a j key' :
  (csmap.Store hasher m key a !!! j) !! key' =
  if decide (j = csmap.getShard hasher key ∧ key' = key) then Some a
  else (m !!! j) !! key'.
Proof.
  unfold csmap.Store.
  destruct (decide (csmap.getShard hasher key = j)) as [<-|Hj].
  - rewrite vlookup_insert, lookup_insert.
    repeat case_decide; intuition congruence.
  - rewrite vlookup_insert_ne by done. case_decide; intuition congruence.
Qed.

Lemma shard_lookup_Delete m key j key' :
  (csmap.Delete hasher m key !!! j) !! key' =
  if decide (j = csmap.getShard hasher key ∧ key' = key) then None
  else (m !!! j) !! key'.
Proof.
  unfold csmap.Delete.
  destruct (decide (csmap.getShard hasher key = j)) as [<-|Hj].
  - rewrite vlookup_insert, lookup_delete.
    repeat case_decide; intuition congruence.
  - rewrite vlookup_insert_ne by done. case_decide; intuition congruence.
Qed.

Lemma Store_Store m key a b :
  csmap.Store hasher (csmap.Store hasher m key a) key b
  = csmap.Store hasher m key b.
Proof.
  apply csmap_ext. intros j key'. rewrite !shard_lookup_Store.
  by repeat case_decide.
Qed.

Lemma Store_commute m key key' a b :
  key ≠ key' →
  csmap.Store hasher (csmap.Store hasher m key a) key' b
  = csmap.Store hasher (csmap.Store hasher m key' b) key a.
Proof.
  intros Hne. apply csmap_ext. intros j k. rewrite !shard_lookup_Store.
  repeat case_decide; intuition congruence.
Qed.

Lemma Delete_Store_absent m key a :
  csmap.Load hasher m key = None →
  csmap.Delete hasher (csmap.Store hasher m key a) key = m.
Proof.
  unfold csmap.Load. intros Habs. apply csmap_ext. intros j k.
  rewrite shard_lookup_Delete, shard_lookup_Store.
  repeat case_decide; intuition congruence.
Qed.

Lemma Delete_Store m key a :
  csmap.Delete hasher (csmap.Store hasher m key a) key
  = csmap.Delete hasher m key.
Proof.
  apply csmap_ext. intros j k.
  rewrite !shard_lookup_Delete, shard_lookup_Store.
  by repeat case_decide.
Qed.

Lemma Clear_Create m size : csmap.Clear m = csmap.Create size.
Proof.
  apply vec_eq. intros j. unfold csmap.Clear, csmap.Create.
  by rewrite vlookup_map, vlookup_replicate.
Qed.

Lemma foldl_Delete_absent m key (n : nat) :
  csmap.Load hasher m key = None →
  foldl (csmap.Delete hasher) m (replicate n key) = m.
Proof.
  intros Habs. induction n as [|n IH]; cbn; [done|].
  by rewrite Delete_absent.
Qed.
End csmap_algebra.

(** ** How the operations compose *)

Section composition.
Context {V : Type}.
Variable hasher : N → N.
Implicit Types (c : @Cache V) (key : N) (v : @any V).

(** X1. [Set] on one key leaves what [Get] returns for every other
    key as it was. *)
Theorem Set_other_key c now key key' v ttl :
  key ≠ key' →
  Get hasher (Set_ hasher c now key v ttl) key' = Get hasher c key'.
Proof. intros Hne. unfold Get, Set_. cbn. by rewrite Load_Store_ne. Qed.

(** X2. [Delete] on one key leaves what [Get] returns for every
    other key as it was. *)
Theorem Delete_other_key c key key' :
  key ≠ key' →
  Get hasher (Delete hasher c key) key' = Get hasher c key'.
Proof. intros Hne. unfold Get, Delete. cbn. by rewrite Load_Delete_ne. Qed.

(** X3. The last write wins: two [Set]s on the same key leave the
    cache exactly as the second one alone would. *)
Theorem Set_Set_same_key c now1 now2 key v1 v2 ttl1 ttl2 :
  Set_ hasher (Set_ hasher c now1 key v1 ttl1) now2 key v2 ttl2
  = Set_ hasher c now2 key v2 ttl2.
Proof. unfold Set_. cbn. by rewrite Store_Store. Qed.

(** X4. [Set]s on two different keys commute: either order leaves
    the same cache. *)
Theorem Set_Set_commute c now1 now2 key1 key2 v1 v2 ttl1 ttl2 :
  key1 ≠ key2 →
  Set_ hasher (Set_ hasher c now1 key1 v1 ttl1) now2 key2 v2 ttl2
  = Set_ hasher (Set_ hasher c now2 key2 v2 ttl2) now1 key1 v1 ttl1.
Proof. intros Hne. unfold Set_. cbn. by rewrite Store_commute. Qed.

(** X5. [Delete] undoes [Set]: deleting a key right after setting it
    leaves the cache as a [Delete] alone would, which is the cache as
    it was before when the key was not stored. *)
Theorem Delete_Set_same_key c now key v ttl :
  Delete hasher (Set_ hasher c now key v ttl) key = Delete hasher c key ∧
  (csmap.Load hasher (items c) key = None →
   Delete hasher (Set_ hasher c now key v ttl) key = c).
Proof.
  split.
  - unfold Delete, Set_. cbn. by rewrite Delete_Store.
  - intros Habs. destruct c as [d m]. unfold Delete, Set_. cbn in *.
    by rewrite Delete_Store_absent.
Qed.

(** X6. [Clear] puts the store back to what [New] created, whatever
    it held, and leaves [done] alone; clearing twice is clearing once. *)
Theorem Clear_resets c resolution :
  items (Clear c) = items (New (V:=V) resolution).1 ∧
  done (Clear c) = done c ∧
  Clear (Clear c) = Clear c.
Proof.
  split; [apply Clear_Create|]. split; [done|].
  unfold Clear. cbn. f_equal.
  etrans; [apply (Clear_Create _ 0%nat) | symmetry; apply (Clear_Create _ 0%nat)].
Qed.
End composition.

(** ** What a sweep pass does to the store *)

Section sweep.
Context {V : Type}.
Variable hasher : N → N.
Implicit Types (c : @Cache V) (key : N) (v : @any V).

Lemma Load_zero_after_cleanup c c' now :
  cleanup hasher c now = Returned c' →
  csmap.Load hasher (items c') 0%N = None.
Proof.
  intros Hrun. destruct (csmap.Load hasher (items c) 0%N) as [it|] eqn:Hload.
  - by eapply cleanup_removes_key_zero.
  - destruct (csmap.Load hasher (items c') 0%N) as [it|] eqn:Hafter; [|done].
    apply (cleanup_only_removes hasher c c' now _ _ Hrun) in Hafter. congruence.
Qed.

(** X7. On a cache reached through the public operations, a sweep
    pass at [now] leaves exactly the entries that are not expired and
    not stored under key 0, each with its value and deadline as they
    were; the [done] channel is untouched. *)
Theorem sweep_pass_exact c now :
  reachable hasher c →
  ∃ c', cleanup hasher c now = Returned c' ∧
        done c' = done c ∧
        ∀ key, csmap.Load hasher (items c') key =
               match csmap.Load hasher (items c) key with
               | Some it =>
                   if decide (key = 0%N ∨ deadline it < now) then None
                   else Some it
               | None => None
               end.
Proof.
  intros Hreach. pose proof (reachable_well_sharded hasher c Hreach) as Hwf.
  destruct (Load_cleanup hasher c now) as (c' & Hrun & Hdone & Hspec).
  exists c'. split; [done|]. split; [done|]. intros key.
  destruct (csmap.Load hasher (items c) key) as [it|] eqn:Hload.
  - case_decide as Hcase.
    + destruct Hcase as [->|Hexp].
      * by eapply cleanup_removes_key_zero.
      * by eapply cleanup_removes_expired.
    + eapply cleanup_keeps_live; eauto; lia.
  - rewrite Hspec, Hload. by case_decide.
Qed.

(** X8. After a sweep pass, whatever the store held and whatever the
    clock reads, [Get(0)] finds nothing. *)
Theorem sweep_pass_drops_key_zero c now :
  ∃ c', cleanup hasher c now = Returned c' ∧
        Get hasher c' 0%N = (None, false).
Proof.
  destruct (cleanup_returns hasher c now) as [c' Hrun].
  exists c'. split; [done|]. apply Get_absent.
  by eapply Load_zero_after_cleanup.
Qed.

(** X9. A sweep pass only removes: it returns, leaves [done] alone,
    every item the store holds afterwards was there before, unchanged,
    and no expired item is left. *)
Theorem sweep_pass_only_removes c now :
  ∃ c', cleanup hasher c now = Returned c' ∧
        done c' = done c ∧
        (∀ key it, csmap.Load hasher (items c') key = Some it →
                   csmap.Load hasher (items c) key = Some it ∧
                   now ≤ deadline it) ∧
        (∀ key it, csmap.Load hasher (items c) key = Some it →
                   deadline it < now →
                   Get hasher c' key = (None, false)).
Proof.
  destruct (Load_cleanup hasher c now) as (c' & Hrun & Hdone & Hspec).
  exists c'. split; [done|]. split; [done|]. split.
  - intros key it Hafter.
    pose proof (cleanup_only_removes hasher c c' now _ _ Hrun Hafter) as Hbefore.
    split; [done|].
    destruct (decide (deadline it < now)) as [Hexp|]; [|lia].
    rewrite (cleanup_removes_expired hasher c c' now key it) in Hafter; done.
  - intros key it Hbefore Hexp. apply Get_absent.
    by eapply cleanup_removes_expired.
Qed.

(** X10. On a cache reached through the public operations, a second
    sweep pass at the same clock reading changes nothing. *)
Theorem sweep_pass_idempotent c now :
  reachable hasher c →
  ∃ c', cleanup hasher c now = Returned c' ∧
        cleanup hasher c' now = Returned c'.
Proof.
  intros Hreach.
  destruct (cleanup_returns hasher c now) as [c' Hrun].
  exists c'. split; [done|].
  assert (well_sharded hasher (items c')) as Hwf'.
  { apply reachable_well_sharded. by eapply reach_cleanup. }
  assert (expired_keys now (csmap.entries (items c')) = []) as Hnone.
  { destruct (expired_keys now (csmap.entries (items c'))) as [|k ks] eqn:Hks;
      [done|exfalso].
    assert (k ∈ expired_keys now (csmap.entries (items c'))) as Hin
      by (rewrite Hks; left).
    apply elem_of_expired_keys in Hin as (it & Hin & Hexp).
    apply (entries_Load hasher _ _ _ Hwf') in Hin.
    destruct (sweep_pass_only_removes c now) as (c2 & Hrun2 & _ & Hkept & _).
    rewrite Hrun in Hrun2. injection Hrun2 as <-.
    destruct (Hkept _ _ Hin) as [_ Hlive]. lia. }
  rewrite cleanup_eq. unfold swept_keys, delete_each. rewrite Hnone. cbn.
  rewrite foldl_Delete_absent by (by eapply Load_zero_after_cleanup).
  by destruct c'.
Qed.

(** X12. Time to live, end to end, when [now + ttl] fits [int64]: an
    item set at [now] with a positive [ttl] under a key other than 0
    survives a sweep pass at any clock reading up to [now + ttl]
    included and is evicted by a pass at any later reading; under
    key 0 it is evicted by any pass. *)
Theorem ttl_end_to_end c now key v ttl now' :
  reachable hasher c →
  is_int64 now → 0 < ttl → now + ttl ≤ int64_max →
  ∃ c', cleanup hasher (Set_ hasher c now key v ttl) now' = Returned c' ∧
        Get hasher c' key =
          if decide (key = 0%N ∨ now + ttl < now') then (None, false)
          else (v, true).
Proof.
  intros Hreach Hnow Hpos Hfit.
  destruct (sweep_pass_exact (Set_ hasher c now key v ttl) now')
    as (c' & Hrun & _ & Hspec); [by constructor|].
  exists c'. split; [done|]. unfold Get. rewrite Hspec.
  unfold Set_ at 1. cbn [items]. rewrite Load_Store_eq. cbn [deadline value].
  unfold add64. rewrite wrap64_id
    by (unfold is_int64, int64_min, int64_max in *; lia).
  by repeat case_decide.
Qed.
End sweep.

(** ** Panics, and the life of the sweeper *)

Section lifecycle.
Context {V : Type}.
Variable hasher : N → N.
Implicit Types (c : @Cache V) (o : @op V) (ops : list (@op V)).

Lemma closes_cons o ops :
  closes (o :: ops) = ((if is_close o then 1 else 0) + closes ops)%nat.
Proof.
  unfold closes. rewrite filter_cons.
  destruct (is_close o); case_decide; done.
Qed.

Lemma run_closes ops : ∀ c,
  if decide (closes ops + closed_before c ≤ 1)%nat
  then returns (run hasher ops c)
  else run hasher ops c = Panicked "close of closed channel".
Proof.
  induction ops as [|o ops IH]; intros c.
  - cbn. rewrite decide_True; [by eexists|].
    unfold closed_before. destruct (done c); cbn; lia.
  - rewrite closes_cons. cbn [run].
    assert (∀ c', done c' = done c →
              if decide (closes ops + closed_before c ≤ 1)%nat
              then returns (run hasher ops c')
              else run hasher ops c' = Panicked "close of closed channel")
      as Hsame.
    { intros c' Hd. specialize (IH c'). unfold closed_before in *.
      by rewrite Hd in IH. }
    destruct o as [key|now key v ttl|key| | |now]; cbn [apply_op is_close obind];
      try (apply Hsame; done).
    + unfold Close, closed_before. destruct (done c) eqn:Hd; cbn.
      * specialize (IH {| done := ChanClosed; items := csmap.Clear (items c) |}).
        unfold closed_before in IH. cbn in IH.
        repeat case_decide; (done || lia).
      * rewrite decide_False by lia. done.
    + destruct (Load_cleanup hasher c now) as (c' & -> & Hd & _). cbn.
      by apply Hsame.
Qed.

(** X13. In a sequential execution of calls and sweep passes on an
    open cache, nothing panics except a second [Close]: the execution
    returns when it calls [Close] at most once, and otherwise panics
    with "close of closed channel". *)
Theorem only_second_Close_panics ops c :
  done c = ChanOpen →
  if decide (closes ops ≤ 1)%nat
  then returns (run hasher ops c)
  else run hasher ops c = Panicked "close of closed channel".
Proof.
  intros Hopen. pose proof (run_closes ops c) as Hrun.
  unfold closed_before in Hrun. rewrite Hopen, Nat.add_0_r in Hrun. done.
Qed.

End lifecycle.

(** ** The composed operations on concrete caches *)

Lemma reachable_fresh : reachable fib_hasher fresh.
Proof. unfold fresh. apply reach_New. Qed.

Lemma reachable_three : reachable fib_hasher three.
Proof.
  unfold three, only_zero. repeat apply reach_Set. apply reachable_fresh.
Qed.

Lemma Set_other_key_witness :
  7%N ≠ 9%N ∧
  Get fib_hasher (Set_ fib_hasher three t0 7%N (Some "z") (50 * ms)) 9%N
    = Get fib_hasher three 9%N.
Proof.
  assert (7%N ≠ 9%N) as Hne by done.
  split; [exact Hne|].
  apply (Set_other_key fib_hasher three t0 7%N 9%N (Some "z") (50 * ms) Hne).
Defined.

Lemma Delete_other_key_witness :
  7%N ≠ 9%N ∧
  Get fib_hasher (Delete fib_hasher three 7%N) 9%N = Get fib_hasher three 9%N.
Proof.
  assert (7%N ≠ 9%N) as Hne by done.
  split; [exact Hne|].
  apply (Delete_other_key fib_hasher three 7%N 9%N Hne).
Defined.

Lemma Set_Set_commute_witness :
  3%N ≠ 35%N ∧
  Set_ fib_hasher (Set_ fib_hasher three t0 3%N (Some "x") (50 * ms))
    (t0 + 1) 35%N (Some "y") (70 * ms)
  = Set_ fib_hasher (Set_ fib_hasher three (t0 + 1) 35%N (Some "y") (70 * ms))
      t0 3%N (Some "x") (50 * ms).
Proof.
  assert (3%N ≠ 35%N) as Hne by done.
  split; [exact Hne|].
  apply (Set_Set_commute fib_hasher three t0 (t0 + 1) 3%N 35%N
           (Some "x") (Some "y") (50 * ms) (70 * ms) Hne).
Defined.

Lemma Delete_Set_same_key_witness :
  csmap.Load fib_hasher (items three) 5%N = None ∧
  Delete fib_hasher (Set_ fib_hasher three t0 5%N (Some "e") (50 * ms)) 5%N
    = three.
Proof.
  assert (csmap.Load fib_hasher (items three) 5%N = None) as Habs
    by (by vm_compute).
  split; [exact Habs|].
  apply (proj2 (Delete_Set_same_key fib_hasher three t0 5%N (Some "e") (50 * ms))
           Habs).
Defined.

Lemma sweep_pass_exact_witness :
  reachable fib_hasher three ∧
  ∃ c', cleanup fib_hasher three (t0 + 100 * ms) = Returned c' ∧
        done c' = done three ∧
        ∀ key, csmap.Load fib_hasher (items c') key =
               match csmap.Load fib_hasher (items three) key with
               | Some it =>
                   if decide (key = 0%N ∨ deadline it < t0 + 100 * ms)
                   then None else Some it
               | None => None
               end.
Proof.
  split; [exact reachable_three|].
  apply (sweep_pass_exact fib_hasher three (t0 + 100 * ms) reachable_three).
Defined.

Lemma sweep_pass_only_removes_witness :
  csmap.Load fib_hasher (items three) 7%N
    = Some {| deadline := t0 + 50 * ms; value := Some "b" |} ∧
  t0 + 50 * ms < t0 + 100 * ms ∧
  ∃ c', cleanup fib_hasher three (t0 + 100 * ms) = Returned c' ∧
        Get fib_hasher c' 7%N = (None, false).
Proof.
  assert (csmap.Load fib_hasher (items three) 7%N
          = Some {| deadline := t0 + 50 * ms; value := Some "b" |}) as Hload
    by (by vm_compute).
  assert (t0 + 50 * ms < t0 + 100 * ms) as Hexp by (unfold t0, ms; lia).
  split; [exact Hload|]. split; [exact Hexp|].
  destruct (sweep_pass_only_removes fib_hasher three (t0 + 100 * ms))
    as (c' & Hrun & _ & _ & Hgone).
  exists c'. split; [exact Hrun|].
  exact (Hgone 7%N _ Hload Hexp).
Defined.

Lemma sweep_pass_idempotent_witness :
  reachable fib_hasher three ∧
  ∃ c', cleanup fib_hasher three (t0 + 100 * ms) = Returned c' ∧
        cleanup fib_hasher c' (t0 + 100 * ms) = Returned c'.
Proof.
  split; [exact reachable_three|].
  apply (sweep_pass_idempotent fib_hasher three (t0 + 100 * ms) reachable_three).
Defined.

Lemma cleanup_over_Permutation_witness :
  reverse (csmap.entries (items three)) ≡ₚ csmap.entries (items three) ∧
  ∃ c1 c2,
    cleanup_over fib_hasher (reverse (csmap.entries (items three))) three
      (t0 + 100 * ms) = Returned c1 ∧
    cleanup fib_hasher three (t0 + 100 * ms) = Returned c2 ∧
    done c1 = done c2 ∧
    ∀ key, csmap.Load fib_hasher (items c1) key
           = csmap.Load fib_hasher (items c2) key.
Proof.
  assert (reverse (csmap.entries (items three)) ≡ₚ csmap.entries (items three))
    as Hperm by apply reverse_Permutation.
  split; [exact Hperm|].
  apply (cleanup_over_Permutation fib_hasher _ three (t0 + 100 * ms) Hperm).
Defined.

Lemma ttl_end_to_end_witness :
  (reachable fib_hasher fresh ∧ is_int64 t0 ∧ 0 < 50 * ms ∧
   t0 + 50 * ms ≤ int64_max) ∧
  ∃ c', cleanup fib_hasher (Set_ fib_hasher fresh t0 1%N (Some "a") (50 * ms))
          (t0 + 100 * ms) = Returned c' ∧
        Get fib_hasher c' 1%N =
          if decide (1%N = 0%N ∨ t0 + 50 * ms < t0 + 100 * ms)
          then (None, false) else (Some "a", true).
Proof.
  assert (0 < 50 * ms) as Hpos by (unfold ms; lia).
  assert (t0 + 50 * ms ≤ int64_max) as Hfit by (unfold t0, ms, int64_max; lia).
  split; [by repeat split; try apply reachable_fresh; try apply is_int64_t0|].
  apply (ttl_end_to_end fib_hasher fresh t0 1%N (Some "a") (50 * ms)
           (t0 + 100 * ms) reachable_fresh is_int64_t0 Hpos Hfit).
Defined.

Lemma only_second_Close_panics_witness :
  done three = ChanOpen ∧
  run fib_hasher
    [OpSet t0 3%N (Some "d") (50 * ms); OpClose; OpGet 3%N;
     OpSweep (t0 + 100 * ms); OpClose; OpClear] three
  = Panicked "close of closed channel".
Proof.
  assert (done three = ChanOpen) as Hopen by reflexivity.
  split; [exact Hopen|].
  exact (only_second_Close_panics fib_hasher
           [OpSet t0 3%N (Some "d") (50 * ms); OpClose; OpGet 3%N;
            OpSweep (t0 + 100 * ms); OpClose; OpClear] three Hopen).
Defined.

